(** * STLSubSets: the recursive powerset algorithm [subsets] / [subsetsCore]

    A shallow embedding of
    [Review_of_CSharp2_Features_Part_III_Resources/STLSubSets/STLSubSets.cpp]
    and the properties of the sequence of subsequences it stores through its
    [std::insert_iterator].

    Modelling decisions.
    - [std::vector<T>] is [list T]; a random access iterator into a vector is
      its offset from [begin()], a [Z] (the [difference_type] is a signed
      integer).  An operation whose C++ behaviour is undefined (a range or a
      position outside the vector) yields [UndefinedBehaviour].
    - The memory a call can reach is the caller's input sequence and the
      caller's result container ([inputToGetSubsets] and [result] in
      [_tmain]).  [subsetsCore] is a computation over that memory.
    - The vectors [input] and [emptySequence] are locals of a stack frame: the
      iterator pair into them is passed as the vector's value together with
      the two offsets.
    - The recursion of [subsetsCore] is on the distance of the remainder
      range, which no structural argument follows; the embedding takes the
      number of stack frames it may use as [fuel] and yields [OutOfFuel] when
      they are used up. *)

From Stdlib Require Import String Ascii DecimalString.
From Stdlib Require DecimalPos DecimalZ.
From Stdlib Require Import ZArith List Lia Bool Sorted.
Import ListNotations.
Open Scope Z_scope.

(** ** Outcomes and the computation monad *)

Inductive error : Type :=
| OutOfFuel
| UndefinedBehaviour.

Inductive outcome (A : Type) : Type :=
| Ok (a : A)
| Err (e : error).

Arguments Ok {A} a.
Arguments Err {A} e.

(** ** std::vector *)

Module Vector.
Section Ops.
Context {T : Type}.

Definition size (v : list T) : Z := Z.of_nat (length v).

(** [first, last) is a valid range of [v]. *)
Definition valid_range (v : list T) (first last : Z) : bool :=
  (0 <=? first) && (first <=? last) && (last <=? size v).

(** The elements of [v] at the offsets [first], ..., [last - 1]. *)
Definition slice (v : list T) (first last : Z) : list T :=
  firstn (Z.to_nat (last - first)) (skipn (Z.to_nat first) v).

(** [std::vector(first, last)]: the range constructor, reading from [v]. *)
Definition from_range (v : list T) (first last : Z) : option (list T) :=
  if valid_range v first last then Some (slice v first last) else None.

(** [v.insert(v.begin() + pos, x)]: the new contents of [v]. *)
Definition insert (v : list T) (pos : Z) (x : T) : option (list T) :=
  if (0 <=? pos) && (pos <=? size v)
  then Some (firstn (Z.to_nat pos) v ++ x :: skipn (Z.to_nat pos) v)
  else None.

(** [v.insert(v.end(), xs.begin(), xs.end())]. *)
Definition insert_end (v xs : list T) : list T := v ++ xs.
End Ops.
End Vector.

Section Subsets.
(** The element type of the input sequence. *)
Variable E : Type.

(** [InputContainerType] is [std::vector<E>], [ResultContainerType] is
    [std::vector<InputContainerType>]. *)
Definition InputContainerType : Type := list E.
Definition ResultContainerType : Type := list InputContainerType.

(** The caller's memory: the sequence the remainder iterators point into
    and the container the insert iterator points to. *)
Record memory : Type := Memory {
  inputToGetSubsets : InputContainerType;
  result : ResultContainerType
}.

(** [std::insert_iterator<ResultContainerType>]: its [container] member
    always points to [result]; [iter] is the insertion position. *)
Record insert_iterator : Type := InsertIterator { iter : Z }.

Definition M (A : Type) : Type := memory -> outcome (A * memory).

Definition ret {A} (a : A) : M A := fun m => Ok (a, m).

Definition bind {A B} (c : M A) (k : A -> M B) : M B :=
  fun m => match c m with
           | Ok (a, m') => k a m'
           | Err e => Err e
           end.

Definition fail {A} (e : error) : M A := fun _ => Err e.

Definition lift {A} (o : option A) : M A :=
  match o with
  | Some a => ret a
  | None => fail UndefinedBehaviour
  end.

Notation "x <- c ;; k" := (bind c (fun x => k))
  (at level 100, c at next level, right associativity).

(** [std::distance(first, last)] on random access iterators. *)
Definition distance (first last : Z) : Z := last - first.

(** Reads the range [first, last) of the caller's sequence. *)
Definition read_range (first last : Z) : M InputContainerType :=
  fun m => lift (Vector.from_range (inputToGetSubsets m) first last) m.

(** [destination = value]: [insert_iterator::operator=] inserts [value] into
    the container before [iter] and leaves [iter] behind the new element. *)
Definition assign (destination : insert_iterator) (value : InputContainerType)
  : M insert_iterator :=
  fun m =>
    match Vector.insert (result m) (iter destination) value with
    | Some c => Ok (InsertIterator (iter destination + 1),
                    Memory (inputToGetSubsets m) c)
    | None => Err UndefinedBehaviour
    end.

(** [++destination]: [insert_iterator::operator++] does nothing. *)
Definition incr (destination : insert_iterator) : M insert_iterator :=
  ret destination.

(** [subsetsCore]. [destination] is passed by reference: the updated
    iterator is returned. [remainderSequenceBegin] and
    [remainderSequenceEnd] are offsets into the caller's sequence;
    [inputSequenceBegin] and [inputSequenceEnd] are offsets into the vector
    [inputSequence] of the calling frame. *)
Fixpoint subsetsCore (fuel : nat) (destination : insert_iterator)
    (remainderSequenceBegin remainderSequenceEnd : Z)
    (inputSequence : InputContainerType)
    (inputSequenceBegin inputSequenceEnd : Z) : M insert_iterator :=
  match fuel with
  | O => fail OutOfFuel
  | S fuel' =>
    if 0 =? distance remainderSequenceBegin remainderSequenceEnd then
      value <- lift (Vector.from_range inputSequence
                       inputSequenceBegin inputSequenceEnd) ;;
      destination <- assign destination value ;;
      incr destination
    else
      input <- lift (Vector.from_range inputSequence
                       inputSequenceBegin inputSequenceEnd) ;;
      head <- read_range remainderSequenceBegin (remainderSequenceBegin + 1) ;;
      let input := Vector.insert_end input head in
      destination <- subsetsCore fuel' destination
                       (remainderSequenceBegin + 1) remainderSequenceEnd
                       input 0 (Vector.size input) ;;
      subsetsCore fuel' destination
        (remainderSequenceBegin + 1) remainderSequenceEnd
        inputSequence inputSequenceBegin inputSequenceEnd
  end.

(** [subsets]. [destination] is passed by value: the caller sees the
    container change, not the iterator. *)
Definition subsets (fuel : nat) (destination : insert_iterator)
    (inputSequenceBegin inputSequenceEnd : Z) : M unit :=
  let emptySequence : InputContainerType := [] in
  _ <- subsetsCore fuel destination inputSequenceBegin inputSequenceEnd
         emptySequence 0 (Vector.size emptySequence) ;;
  ret tt.

End Subsets.

Arguments Memory {E} _ _.
Arguments inputToGetSubsets {E} _.
Arguments result {E} _.
Arguments ret {E A} _ _.
Arguments bind {E A B} _ _ _.
Arguments fail {E A} _ _.
Arguments lift {E A} _ _.
Arguments read_range {E} _ _ _.
Arguments assign {E} _ _ _.
Arguments incr {E} _ _.
Arguments subsetsCore {E} _ _ _ _ _ _ _ _.
Arguments subsets {E} _ _ _ _ _.


(** ** The enumeration the specification describes *)

Section Enumeration.
Context {E : Type}.

(** The recursion over a remainder and an accumulated sequence: an empty
    remainder emits the accumulated sequence; otherwise the branch that
    includes the head [h] (appended to the accumulated sequence) is emitted
    in full, then the branch that excludes it. *)
Fixpoint powerset_from (accumulated remainder : list E) : list (list E) :=
  match remainder with
  | [] => [accumulated]
  | h :: rest =>
    powerset_from (accumulated ++ [h]) rest ++ powerset_from accumulated rest
  end.

(** The entry point seeds the recursion with the whole input and the empty
    accumulated sequence. *)
Definition generatePowerset (input : list E) : list (list E) :=
  powerset_from [] input.

(** The container [c] after the sequences [out] were inserted, in order,
    before the position [pos]. *)
Definition splice (c : list (list E)) (pos : Z) (out : list (list E))
  : list (list E) :=
  firstn (Z.to_nat pos) c ++ out ++ skipn (Z.to_nat pos) c.

(** [r] consists of the elements of [input] at the positions [ps], in the
    order of [ps]. *)
Definition drawn_from (input : list E) (ps : list nat) (r : list E) : Prop :=
  Forall2 (fun i x => nth_error input i = Some x) ps r.

(** [x] is at exactly one index of [l]. *)
Definition occurs_once {A : Type} (x : A) (l : list A) : Prop :=
  exists l1 l2, l = l1 ++ x :: l2 /\ ~ In x l1 /\ ~ In x l2.

(** The remainder range handed to a call is a valid range of the caller's
    sequence and the insert iterator points into the result container. *)
Definition well_formed (m : memory E) (destination : insert_iterator)
    (first last : Z) : Prop :=
  Vector.valid_range (inputToGetSubsets m) first last = true /\
  0 <= iter destination <= Vector.size (result m).

(** The input sequence of a call: the elements of the caller's sequence in
    the range [first, last). *)
Definition input_range (m : memory E) (first last : Z) : list E :=
  Vector.slice (inputToGetSubsets m) first last.

(** The memory after the sequences [out] went through [destination]. *)
Definition emitted (m : memory E) (destination : insert_iterator)
    (out : list (list E)) : memory E :=
  Memory (inputToGetSubsets m) (splice (result m) (iter destination) out).
End Enumeration.

(** Positions are strictly increasing. *)
Definition increasing (ps : list nat) : Prop := StronglySorted lt ps.

(** The enumeration of the positions [0], ..., [N - 1]: the position lists of
    the results, in the order of the results. *)
Definition positions (N : nat) : list (list nat) := generatePowerset (seq 0 N).

(** The positions [qs] lie in [k], ..., [k + n - 1]. *)
Definition within (k n : nat) (qs : list nat) : Prop :=
  Forall (fun i => (k <= i < k + n)%nat) qs.

(** The Lisp implementation the source gives in its comment:
    [(defun powerset (l)
       (if (null l) '(nil)
         (let ((ps (powerset (cdr l))))
           (append ps (mapcar #'(lambda (x) (cons (car l) x)) ps)))))]. *)
Fixpoint powerset {E : Type} (l : list E) : list (list E) :=
  match l with
  | [] => [[]]
  | car :: cdr =>
    let ps := powerset cdr in
    ps ++ map (fun x => car :: x) ps
  end.

(** The first index at which [ps] is in [P], the length of [P] if it is
    nowhere. *)
Fixpoint index_of (ps : list nat) (P : list (list nat)) : nat :=
  match P with
  | [] => 0%nat
  | qs :: rest =>
    if list_eq_dec Nat.eq_dec ps qs then 0%nat else S (index_of ps rest)
  end.

(** [std::inserter(c, c.begin() + pos)]: an insert iterator made anew for
    the container as it is, at the offset [pos]. *)
Definition inserter (pos : Z) : insert_iterator := InsertIterator pos.

(** ** The caller: [_tmain] *)

(** [v.push_back(x)]. *)
Definition push_back {T : Type} (v : list T) (x : T) : list T := v ++ [x].

(** [std::inserter(c, c.begin())]. *)
Definition inserter_at_begin : insert_iterator := InsertIterator 0.

(** [std::cout << item] for an [int] on a stream in its initial state: the
    decimal digits, after a minus sign for a negative number. *)
Definition print_int (item : Z) : string :=
  NilZero.string_of_int (Z.to_int item).

(** The blank of [<< ' '] and the line feed of [std::endl]. *)
Definition blank : string := String " "%char EmptyString.
Definition endl : string := String "010"%char EmptyString.

(** The inner loop of [_tmain]: each element, followed by a blank, goes to
    [std::cout]. *)
Fixpoint print_elements (cout : string) (inner : list Z) : string :=
  match inner with
  | [] => cout
  | item :: rest =>
    print_elements (cout ++ print_int item ++ blank)%string rest
  end.

(** The outer loop of [_tmain]: the elements of each sequence, then
    [std::endl]. *)
Fixpoint print_result (cout : string) (result : list (list Z)) : string :=
  match result with
  | [] => cout
  | inner :: rest =>
    print_result (print_elements cout inner ++ endl)%string rest
  end.

Definition EXIT_SUCCESS : Z := 0.

(** [_tmain]: what it writes to [std::cout] and the exit code it returns.
    [argc] and [argv] are not used. *)
Definition _tmain (fuel : nat) : outcome (string * Z) :=
  let result : list (list Z) := [] in
  let inputToGetSubsets : list Z := [] in
  let inputToGetSubsets := push_back inputToGetSubsets 0 in
  let inputToGetSubsets := push_back inputToGetSubsets 1 in
  let inputToGetSubsets := push_back inputToGetSubsets 2 in
  match subsets fuel inserter_at_begin 0 (Vector.size inputToGetSubsets)
          (Memory inputToGetSubsets result) with
  | Ok (_, Memory _ result) =>
    Ok (print_result EmptyString result, EXIT_SUCCESS)
  | Err e => Err e
  end.

(** The number of times the character [c] is in [s]. *)
Fixpoint count_char (c : ascii) (s : string) : nat :=
  match s with
  | EmptyString => 0%nat
  | String a rest =>
    ((if Ascii.eqb a c then 1 else 0) + count_char c rest)%nat
  end.

(** ** Vectors and splicing *)

(** Exposes the lengths behind [Vector.size] to [lia]. *)
Ltac sizes :=
  unfold Vector.size, ResultContainerType, InputContainerType in *.

Section VectorFacts.
Context {T : Type}.
Implicit Types v : list T.

Lemma valid_range_spec v first last :
  Vector.valid_range v first last = true <->
  0 <= first <= last /\ last <= Vector.size v.
Proof. unfold Vector.valid_range. rewrite !andb_true_iff, !Z.leb_le. lia. Qed.

Lemma from_range_valid v first last :
  Vector.valid_range v first last = true ->
  Vector.from_range v first last = Some (Vector.slice v first last).
Proof. unfold Vector.from_range. now intros ->. Qed.

Lemma slice_full v : Vector.slice v 0 (Vector.size v) = v.
Proof.
  unfold Vector.slice, Vector.size.
  rewrite Z.sub_0_r, Nat2Z.id. simpl. apply firstn_all.
Qed.

Lemma slice_empty v first : Vector.slice v first first = [].
Proof. unfold Vector.slice. now rewrite Z.sub_diag. Qed.

Lemma slice_head v first last :
  Vector.valid_range v first last = true -> first < last ->
  exists h, Vector.slice v first (first + 1) = [h] /\
            Vector.slice v first last = h :: Vector.slice v (first + 1) last.
Proof.
  intros Hv Hlt. apply valid_range_spec in Hv. unfold Vector.size in Hv.
  unfold Vector.slice.
  replace (first + 1 - first) with 1 by lia.
  replace (Z.to_nat (last - first)) with (S (Z.to_nat (last - (first + 1))))
    by lia.
  replace (Z.to_nat (first + 1)) with (S (Z.to_nat first)) by lia.
  destruct (skipn (Z.to_nat first) v) as [|h tl] eqn:Hs.
  - apply skipn_all_iff in Hs. lia.
  - exists h. split; [reflexivity|].
    rewrite firstn_cons. f_equal. f_equal.
    change (S (Z.to_nat first)) with (1 + Z.to_nat first)%nat.
    rewrite <- skipn_skipn, Hs. reflexivity.
Qed.

Lemma slice_length v first last :
  Vector.valid_range v first last = true ->
  Z.of_nat (length (Vector.slice v first last)) = last - first.
Proof.
  intros Hv. apply valid_range_spec in Hv. unfold Vector.size in Hv.
  unfold Vector.slice. rewrite length_firstn, length_skipn. lia.
Qed.
End VectorFacts.

Section SpliceFacts.
Context {E : Type}.
Implicit Types c out : list (list E).

Lemma splice_length c pos out :
  Vector.size (splice c pos out) = Vector.size c + Vector.size out.
Proof.
  unfold splice, Vector.size. rewrite !length_app.
  rewrite <- (firstn_skipn (Z.to_nat pos) c) at 3. rewrite length_app. lia.
Qed.

Lemma splice_one c pos (x : list E) :
  0 <= pos <= Vector.size c ->
  Vector.insert c pos x = Some (splice c pos [x]).
Proof.
  intros H. unfold Vector.insert.
  replace ((0 <=? pos) && (pos <=? Vector.size c)) with true; [reflexivity|].
  symmetry. rewrite andb_true_iff, !Z.leb_le. lia.
Qed.

Lemma firstn_skipn_prefix {A} (l1 l2 : list A) :
  firstn (length l1) (l1 ++ l2) = l1 /\ skipn (length l1) (l1 ++ l2) = l2.
Proof.
  split.
  - rewrite firstn_app, Nat.sub_diag, firstn_all. apply app_nil_r.
  - rewrite skipn_app, Nat.sub_diag, skipn_all. reflexivity.
Qed.

Lemma splice_splice c pos out1 out2 :
  0 <= pos <= Vector.size c ->
  splice (splice c pos out1) (pos + Vector.size out1) out2 =
  splice c pos (out1 ++ out2).
Proof.
  unfold Vector.size, splice. intros H.
  set (n := Z.to_nat pos).
  assert (Hn : Z.to_nat (pos + Z.of_nat (length out1)) =
               length (firstn n c ++ out1)).
  { rewrite length_app, length_firstn. lia. }
  rewrite Hn, (app_assoc _ out1 (skipn n c)).
  destruct (firstn_skipn_prefix (firstn n c ++ out1) (skipn n c)) as [-> ->].
  now rewrite <- !app_assoc.
Qed.
End SpliceFacts.

(** ** What a call of [subsetsCore] and of [subsets] does *)

Section Run.
Context {E : Type}.
Implicit Types (m : memory E) (destination : insert_iterator).

Lemma bind_ok {A B} (c : M E A) (k : A -> M E B) m a m' :
  c m = Ok (a, m') -> bind c k m = k a m'.
Proof. unfold bind. now intros ->. Qed.

Lemma lift_range {A} (v : list A) first last m :
  Vector.valid_range v first last = true ->
  lift (Vector.from_range v first last) m = Ok (Vector.slice v first last, m).
Proof. intros H. now rewrite (from_range_valid _ _ _ H). Qed.

Lemma assign_ok destination value m :
  0 <= iter destination <= Vector.size (result m) ->
  assign destination value m =
  Ok (InsertIterator (iter destination + 1), emitted m destination [value]).
Proof. intros H. unfold assign. now rewrite (splice_one _ _ _ H). Qed.

Lemma subsetsCore_run fuel :
  forall destination first last inputSequence ib ie m,
  well_formed m destination first last ->
  Vector.valid_range inputSequence ib ie = true ->
  (Z.to_nat (distance first last) < fuel)%nat ->
  let out := powerset_from (Vector.slice inputSequence ib ie)
               (Vector.slice (inputToGetSubsets m) first last) in
  subsetsCore fuel destination first last inputSequence ib ie m =
  Ok (InsertIterator (iter destination + Vector.size out),
      emitted m destination out).
Proof.
  induction fuel as [|fuel IH]; intros destination first last inputSequence
    ib ie m [Hrem Hit] Hin Hfuel out; [lia|].
  pose proof Hrem as Hrem'. apply valid_range_spec in Hrem'.
  unfold distance in Hfuel. subst out.
  cbn [subsetsCore]. unfold distance.
  set (acc := Vector.slice inputSequence ib ie).
  destruct (Z.eqb_spec 0 (last - first)) as [Heq|Hne].
  - assert (last = first) by lia. subst last.
    rewrite slice_empty. cbn [powerset_from].
    rewrite (bind_ok _ _ _ _ _ (lift_range _ _ _ m Hin)).
    rewrite (bind_ok _ _ _ _ _ (assign_ok _ _ _ Hit)).
    reflexivity.
  - destruct (slice_head _ _ _ Hrem) as (h & Hh & Hcons); [lia|].
    rewrite Hcons. cbn [powerset_from].
    rewrite (bind_ok _ _ _ _ _ (lift_range _ _ _ m Hin)). fold acc.
    assert (Hread : read_range first (first + 1) m = Ok ([h], m)).
    { unfold read_range. rewrite lift_range, Hh; [reflexivity|].
      apply valid_range_spec. lia. }
    rewrite (bind_ok _ _ _ _ _ Hread). unfold Vector.insert_end.
    set (out1 := powerset_from (acc ++ [h]) _).
    set (out2 := powerset_from acc _).
    assert (Hfirst : subsetsCore fuel destination (first + 1) last
              (acc ++ [h]) 0 (Vector.size (acc ++ [h])) m =
            Ok (InsertIterator (iter destination + Vector.size out1),
                emitted m destination out1)).
    { rewrite IH.
      - now rewrite slice_full.
      - split; [apply valid_range_spec; lia|exact Hit].
      - apply valid_range_spec. unfold Vector.size. lia.
      - unfold distance. lia. }
    rewrite (bind_ok _ _ _ _ _ Hfirst), IH.
    + fold acc out2. unfold emitted. cbn [inputToGetSubsets result iter].
      rewrite splice_splice by exact Hit.
      unfold Vector.size.
      now rewrite length_app, Nat2Z.inj_add, Z.add_assoc.
    + split; cbn [emitted inputToGetSubsets result iter].
      * apply valid_range_spec. lia.
      * rewrite splice_length. sizes. lia.
    + exact Hin.
    + unfold distance. lia.
Qed.

Lemma input_range_length m first last :
  Vector.valid_range (inputToGetSubsets m) first last = true ->
  length (input_range m first last) = Z.to_nat (distance first last).
Proof.
  intros H. apply slice_length in H. unfold input_range, distance. lia.
Qed.

(** [subsets] writes the enumeration of its input range. *)
Lemma subsets_run fuel destination first last m :
  well_formed m destination first last ->
  (length (input_range m first last) < fuel)%nat ->
  subsets fuel destination first last m =
  Ok (tt, emitted m destination (generatePowerset (input_range m first last))).
Proof.
  intros Hwf Hfuel. unfold subsets.
  rewrite (input_range_length _ _ _ (proj1 Hwf)) in Hfuel.
  erewrite bind_ok; [|now apply subsetsCore_run].
  rewrite slice_full. reflexivity.
Qed.
End Run.

(** ** The enumeration *)

Section EnumerationFacts.
Context {E : Type}.
Implicit Types (acc rem r : list E).

Lemma powerset_from_length rem : forall acc,
  length (powerset_from acc rem) = (2 ^ length rem)%nat.
Proof.
  induction rem as [|h rest IH]; intros acc; cbn [powerset_from length].
  - reflexivity.
  - rewrite length_app, !IH. cbn [Nat.pow]. lia.
Qed.

Lemma generatePowerset_size (input : list E) :
  Vector.size (generatePowerset input) = 2 ^ Vector.size input.
Proof.
  unfold Vector.size, generatePowerset.
  rewrite powerset_from_length, Nat2Z.inj_pow. reflexivity.
Qed.

(** The accumulated sequence is the last result and the shortest. *)
Lemma powerset_from_last rem : forall acc,
  exists l1, powerset_from acc rem = l1 ++ [acc] /\
             Forall (fun r => (length acc < length r)%nat) l1.
Proof.
  induction rem as [|h rest IH]; intros acc; cbn [powerset_from].
  - exists []. split; [reflexivity|constructor].
  - destruct (IH (acc ++ [h])) as (l1 & -> & H1).
    destruct (IH acc) as (l2 & -> & H2).
    exists ((l1 ++ [acc ++ [h]]) ++ l2). split.
    + now rewrite <- !app_assoc.
    + rewrite !Forall_app. repeat split; [..|exact H2].
      * eapply Forall_impl; [|exact H1]. cbn beta. intros r.
        rewrite length_app. cbn [length]. lia.
      * constructor; [|constructor]. rewrite length_app. cbn [length]. lia.
Qed.

(** The accumulated sequence followed by the whole remainder is the first
    result and the longest. *)
Lemma powerset_from_first rem : forall acc,
  exists l2, powerset_from acc rem = (acc ++ rem) :: l2 /\
             Forall (fun r => (length r < length (acc ++ rem))%nat) l2.
Proof.
  induction rem as [|h rest IH]; intros acc; cbn [powerset_from].
  - exists []. split; [now rewrite app_nil_r|constructor].
  - destruct (IH (acc ++ [h])) as (l1 & -> & H1).
    destruct (IH acc) as (l2 & -> & H2).
    rewrite <- app_assoc in *. cbn [app] in *.
    exists (l1 ++ (acc ++ rest) :: l2). split; [reflexivity|].
    rewrite Forall_app. split; [exact H1|].
    assert (Hlt : (length (acc ++ rest) < length (acc ++ h :: rest))%nat)
      by (rewrite !length_app; cbn [length]; lia).
    constructor; [exact Hlt|].
    eapply Forall_impl; [|exact H2]. cbn beta. intros r. lia.
Qed.

Lemma occurs_once_empty (input : list E) :
  occurs_once [] (generatePowerset input).
Proof.
  destruct (powerset_from_last input []) as (l1 & Heq & Hlen).
  exists l1, []. repeat split; [exact Heq| |intros []].
  intros Hin. rewrite Forall_forall in Hlen.
  apply Hlen in Hin. cbn in Hin. lia.
Qed.

Lemma occurs_once_full (input : list E) :
  occurs_once input (generatePowerset input).
Proof.
  destruct (powerset_from_first input []) as (l2 & Heq & Hlen).
  exists [], l2. repeat split; [exact Heq|intros []|].
  intros Hin. rewrite Forall_forall in Hlen.
  apply Hlen in Hin. cbn in Hin. lia.
Qed.
End EnumerationFacts.

(** ** Positions *)

Section PositionFacts.
Context {E : Type}.

Lemma skipn_head (v : list E) k h rest :
  skipn k v = h :: rest -> nth_error v k = Some h /\ skipn (S k) v = rest.
Proof.
  intros H. split.
  - rewrite <- (Nat.add_0_r k), <- nth_error_skipn, H. reflexivity.
  - change (S k) with (1 + k)%nat. rewrite <- skipn_skipn, H. reflexivity.
Qed.

(** The results of a remainder [skipn k v] are drawn from the positions the
    same recursion enumerates on [k], [k + 1], ... *)
Lemma powerset_from_drawn (v : list E) rem : forall k accP acc,
  skipn k v = rem -> drawn_from v accP acc ->
  Forall2 (drawn_from v)
    (powerset_from accP (seq k (length rem))) (powerset_from acc rem).
Proof.
  induction rem as [|h rest IH]; intros k accP acc Hk Hacc;
    cbn [powerset_from length seq].
  - constructor; [exact Hacc|constructor].
  - apply skipn_head in Hk as [Hh Hk].
    apply Forall2_app; apply IH; try assumption.
    apply Forall2_app; [exact Hacc|]. constructor; [exact Hh|constructor].
Qed.

Lemma generatePowerset_drawn (v : list E) :
  Forall2 (drawn_from v) (positions (length v)) (generatePowerset v).
Proof. apply (powerset_from_drawn v v 0%nat [] []); constructor. Qed.

(** The positions determine the result. *)
Lemma drawn_from_functional (v : list E) ps : forall r1 r2,
  drawn_from v ps r1 -> drawn_from v ps r2 -> r1 = r2.
Proof.
  induction ps as [|p ps IH]; intros r1 r2 H1 H2; inversion H1; inversion H2;
    subst; [reflexivity|].
  f_equal; [congruence|now apply IH].
Qed.

Lemma drawn_from_bound (v : list E) ps r :
  drawn_from v ps r -> Forall (fun i => (i < length v)%nat) ps.
Proof.
  induction 1 as [|i x ps r Hi _ IH]; constructor; [|exact IH].
  apply nth_error_Some. congruence.
Qed.
End PositionFacts.

Section PositionEnumeration.
Implicit Types (ps qs acc : list nat).

Lemma increasing_cons k qs :
  increasing (k :: qs) <-> Forall (lt k) qs /\ increasing qs.
Proof.
  split.
  - intros H. apply StronglySorted_inv in H. tauto.
  - intros [H1 H2]. now constructor.
Qed.

Lemma In_positions_from n : forall k acc ps,
  In ps (powerset_from acc (seq k n)) <->
  exists qs, ps = acc ++ qs /\ increasing qs /\ within k n qs.
Proof.
  unfold within.
  induction n as [|n IH]; intros k acc ps; cbn [seq powerset_from].
  - split.
    + intros [<-|[]]. exists []. rewrite app_nil_r.
      repeat split; constructor.
    + intros (qs & -> & _ & Hw). left.
      destruct qs as [|q qs]; [now rewrite app_nil_r|].
      apply Forall_inv in Hw. lia.
  - rewrite in_app_iff, !IH. split.
    + intros [(qs & -> & Hi & Hw)|(qs & -> & Hi & Hw)].
      * exists (k :: qs). rewrite <- app_assoc. repeat split.
        -- apply increasing_cons. split; [|exact Hi].
           eapply Forall_impl; [|exact Hw]. cbn beta. intros i. lia.
        -- constructor; [lia|].
           eapply Forall_impl; [|exact Hw]. cbn beta. intros i. lia.
      * exists qs. repeat split; [exact Hi|].
        eapply Forall_impl; [|exact Hw]. cbn beta. intros i. lia.
    + intros (qs & -> & Hi & Hw).
      destruct qs as [|q qs]; [right; exists []; repeat split; constructor|].
      apply increasing_cons in Hi as [Hq Hi].
      pose proof (Forall_inv Hw) as Hqk. cbn beta in Hqk.
      apply Forall_inv_tail in Hw.
      assert (Htl : Forall (fun i => (S k <= i < S k + n)%nat) qs).
      { rewrite Forall_forall in Hq, Hw |- *. intros i Hin.
        specialize (Hq i Hin). specialize (Hw i Hin). cbn beta in Hw. lia. }
      destruct (Nat.eq_dec q k) as [->|Hne].
      * left. exists qs. rewrite <- app_assoc. now repeat split.
      * right. exists (q :: qs). repeat split.
        -- now apply increasing_cons.
        -- constructor; [lia|exact Htl].
Qed.

Lemma NoDup_positions_from n : forall k acc,
  NoDup (powerset_from acc (seq k n)).
Proof.
  induction n as [|n IH]; intros k acc; cbn [seq powerset_from].
  - constructor; [intros []|constructor].
  - apply NoDup_app; [apply IH|apply IH|].
    intros ps H1 H2.
    apply In_positions_from in H1 as (qs1 & -> & _ & _).
    apply In_positions_from in H2 as (qs2 & Heq & _ & Hw).
    rewrite <- app_assoc in Heq. apply app_inv_head in Heq. subst qs2.
    apply Forall_inv in Hw. lia.
Qed.

Lemma In_positions N ps :
  In ps (positions N) <->
  increasing ps /\ Forall (fun i => (i < N)%nat) ps.
Proof.
  unfold positions, generatePowerset. rewrite In_positions_from.
  unfold within. split.
  - intros (qs & -> & Hi & Hw). split; [exact Hi|].
    eapply Forall_impl; [|exact Hw]. cbn beta. intros i. lia.
  - intros [Hi Hw]. exists ps. repeat split; [exact Hi|].
    eapply Forall_impl; [|exact Hw]. cbn beta. intros i. lia.
Qed.

Lemma NoDup_positions N : NoDup (positions N).
Proof. apply NoDup_positions_from. Qed.

Lemma increasing_NoDup ps : increasing ps -> NoDup ps.
Proof.
  induction ps as [|p ps IH]; intros H; constructor.
  - apply increasing_cons in H as [H _]. rewrite Forall_forall in H.
    intros Hin. apply H in Hin. lia.
  - apply IH. now apply increasing_cons in H.
Qed.
End PositionEnumeration.

(** ** Frame and fuel *)

Section Frame.
Context {E : Type}.
Implicit Types (m : memory E) (destination : insert_iterator).

Lemma bind_inv {A B} (c : M E A) (k : A -> M E B) m b m' :
  bind c k m = Ok (b, m') ->
  exists a m1, c m = Ok (a, m1) /\ k a m1 = Ok (b, m').
Proof.
  unfold bind. destruct (c m) as [[a m1]|e]; [|discriminate].
  intros H. now exists a, m1.
Qed.

Lemma lift_inv {A} (o : option A) m a m' :
  lift o m = Ok (a, m') -> o = Some a /\ m' = m.
Proof. destruct o; cbn; [|discriminate]. intros [= -> ->]. now split. Qed.

Lemma assign_inv destination value m d' m' :
  assign destination value m = Ok (d', m') ->
  m' = emitted m destination [value] /\
  iter d' = iter destination + 1 /\
  0 <= iter destination <= Vector.size (result m).
Proof.
  unfold assign, Vector.insert.
  destruct ((0 <=? iter destination) &&
            (iter destination <=? Vector.size (result m))) eqn:Hpos;
    [|discriminate].
  intros [= <- <-]. apply andb_true_iff in Hpos.
  rewrite !Z.leb_le in Hpos. repeat split; tauto.
Qed.

(** A call that returns has left the caller's sequence as it was and has
    only inserted into the result container, before [destination]. *)
Lemma subsetsCore_frame fuel :
  forall destination first last inputSequence ib ie m d' m',
  subsetsCore fuel destination first last inputSequence ib ie m
    = Ok (d', m') ->
  exists out, m' = emitted m destination out /\
              iter d' = iter destination + Vector.size out /\
              0 <= iter destination <= Vector.size (result m).
Proof.
  induction fuel as [|fuel IH];
    intros destination first last inputSequence ib ie m d' m' Hrun;
    [discriminate|].
  cbn [subsetsCore] in Hrun.
  destruct (0 =? distance first last).
  - apply bind_inv in Hrun as (value & m1 & Hv & Hrun).
    apply lift_inv in Hv as [_ ->].
    apply bind_inv in Hrun as (d1 & m2 & Ha & Hrun).
    apply assign_inv in Ha as (-> & Hd1 & Hpos).
    unfold incr, ret in Hrun. injection Hrun as <- <-.
    exists [value]. repeat split; tauto.
  - apply bind_inv in Hrun as (input & m1 & Hv & Hrun).
    apply lift_inv in Hv as [_ ->].
    apply bind_inv in Hrun as (head & m1 & Hr & Hrun).
    apply lift_inv in Hr as [_ ->].
    apply bind_inv in Hrun as (d1 & m1 & Hincl & Hexcl).
    apply IH in Hincl as (out1 & -> & Hd1 & Hpos).
    apply IH in Hexcl as (out2 & -> & Hd2 & _).
    exists (out1 ++ out2). repeat split; try tauto.
    + unfold emitted. cbn [inputToGetSubsets result].
      rewrite Hd1, splice_splice by exact Hpos. reflexivity.
    + rewrite Hd2, Hd1. unfold Vector.size.
      rewrite length_app, Nat2Z.inj_add. lia.
Qed.

(** With no more frames than the remainder has elements the recursion runs
    out of fuel: the include branch alone nests one call per element. *)
Lemma subsetsCore_out_of_fuel fuel :
  forall destination first last inputSequence ib ie m,
  well_formed m destination first last ->
  Vector.valid_range inputSequence ib ie = true ->
  (fuel <= Z.to_nat (distance first last))%nat ->
  subsetsCore fuel destination first last inputSequence ib ie m
    = Err OutOfFuel.
Proof.
  induction fuel as [|fuel IH];
    intros destination first last inputSequence ib ie m [Hrem Hit] Hin Hfuel;
    [reflexivity|].
  pose proof Hrem as Hrem'. apply valid_range_spec in Hrem'.
  unfold distance in Hfuel. cbn [subsetsCore]. unfold distance.
  destruct (Z.eqb_spec 0 (last - first)) as [Heq|Hne]; [lia|].
  destruct (slice_head _ _ _ Hrem) as (h & Hh & _); [lia|].
  rewrite (bind_ok _ _ _ _ _ (lift_range _ _ _ m Hin)).
  assert (Hread : read_range first (first + 1) m = Ok ([h], m)).
  { unfold read_range. rewrite lift_range, Hh; [reflexivity|].
    apply valid_range_spec. lia. }
  rewrite (bind_ok _ _ _ _ _ Hread).
  unfold bind. rewrite IH; [reflexivity| | |].
  - split; [apply valid_range_spec; lia|exact Hit].
  - apply valid_range_spec. unfold Vector.size. lia.
  - unfold distance. lia.
Qed.
End Frame.

(** ** The properties of [subsets] *)

Section Claims.
Context {E : Type}.
Implicit Types (m : memory E) (destination : insert_iterator).

Lemma Forall2_covered {A B} (R : A -> B -> Prop) l1 l2 :
  Forall2 R l1 l2 -> Forall (fun y => exists x, In x l1 /\ R x y) l2.
Proof.
  induction 1 as [|x y l1 l2 HR _ IH]; constructor.
  - exists x. split; [now left|exact HR].
  - eapply Forall_impl; [|exact IH]. cbn beta.
    intros b (a & Ha & Hab). exists a. split; [now right|exact Hab].
Qed.

Lemma Forall2_at {A B} (R : A -> B -> Prop) l1 l2 :
  Forall2 R l1 l2 -> forall k x, nth_error l1 k = Some x ->
  exists y, nth_error l2 k = Some y /\ R x y.
Proof.
  induction 1 as [|x y l1 l2 HR _ IH]; intros [|k] a Hk; cbn in *;
    try discriminate.
  - injection Hk as <-. now exists y.
  - now apply IH.
Qed.

(** C1. For every input sequence of length N >= 0, a call of [subsets]
    returns and has written exactly 2^N subsequences into the destination:
    the result container holds them, inserted before the insert iterator's
    position, and has grown by 2^N elements. *)
Theorem subsets_writes_two_pow_N fuel destination first last m :
  well_formed m destination first last ->
  (length (input_range m first last) < fuel)%nat ->
  exists out,
    subsets fuel destination first last m
      = Ok (tt, emitted m destination out) /\
    Vector.size out = 2 ^ Vector.size (input_range m first last) /\
    Vector.size (result (emitted m destination out))
      = Vector.size (result m) + 2 ^ Vector.size (input_range m first last).
Proof.
  intros Hwf Hfuel. exists (generatePowerset (input_range m first last)).
  split; [now apply subsets_run|].
  cbn [emitted result]. rewrite splice_length, generatePowerset_size.
  now split.
Qed.

(** C3. Every sequence a call of [subsets] writes consists of the elements
    of the input at strictly increasing positions: no position is used
    twice, and the elements are in the order they have in the input. *)
Theorem results_drawn_from_increasing_positions
    fuel destination first last m :
  well_formed m destination first last ->
  (length (input_range m first last) < fuel)%nat ->
  exists out,
    subsets fuel destination first last m
      = Ok (tt, emitted m destination out) /\
    Forall (fun r => exists ps, increasing ps /\ NoDup ps /\
                                drawn_from (input_range m first last) ps r) out.
Proof.
  intros Hwf Hfuel. exists (generatePowerset (input_range m first last)).
  split; [now apply subsets_run|].
  eapply Forall_impl;
    [|exact (Forall2_covered _ _ _
               (generatePowerset_drawn (input_range m first last)))].
  cbn beta. intros r (ps & Hin & Hdrawn).
  apply In_positions in Hin as [Hinc _].
  exists ps. repeat split; [exact Hinc|now apply increasing_NoDup|exact Hdrawn].
Qed.

(** C4. Among the sequences a call of [subsets] writes, the empty sequence
    is at exactly one index and the whole input sequence is at exactly one
    index. *)
Theorem empty_and_full_occur_once fuel destination first last m :
  well_formed m destination first last ->
  (length (input_range m first last) < fuel)%nat ->
  exists out,
    subsets fuel destination first last m
      = Ok (tt, emitted m destination out) /\
    occurs_once [] out /\
    occurs_once (input_range m first last) out.
Proof.
  intros Hwf Hfuel. exists (generatePowerset (input_range m first last)).
  split; [now apply subsets_run|].
  split; [apply occurs_once_empty|apply occurs_once_full].
Qed.

(** C6. The empty input is valid: with one stack frame or more the call
    returns without an error and writes exactly one sequence, the empty
    one. *)
Theorem empty_input_yields_empty_subsequence fuel destination first last m :
  well_formed m destination first last ->
  input_range m first last = [] ->
  (0 < fuel)%nat ->
  subsets fuel destination first last m = Ok (tt, emitted m destination [[]]).
Proof.
  intros Hwf Hempty Hfuel. rewrite subsets_run; [|exact Hwf|].
  - now rewrite Hempty.
  - now rewrite Hempty.
Qed.

(** C7. Two calls of [subsets] on the same input sequence write the same
    sequences in the same order, whatever the destination containers hold,
    wherever the insert iterators point and however many stack frames are
    available beyond the N + 1 needed. *)
Theorem subsets_deterministic fuel1 fuel2 destination1 destination2
    first1 last1 first2 last2 m1 m2 :
  input_range m1 first1 last1 = input_range m2 first2 last2 ->
  well_formed m1 destination1 first1 last1 ->
  well_formed m2 destination2 first2 last2 ->
  (length (input_range m1 first1 last1) < fuel1)%nat ->
  (length (input_range m2 first2 last2) < fuel2)%nat ->
  exists out,
    subsets fuel1 destination1 first1 last1 m1
      = Ok (tt, emitted m1 destination1 out) /\
    subsets fuel2 destination2 first2 last2 m2
      = Ok (tt, emitted m2 destination2 out).
Proof.
  intros Hsame Hwf1 Hwf2 Hfuel1 Hfuel2.
  exists (generatePowerset (input_range m1 first1 last1)). split.
  - now apply subsets_run.
  - rewrite Hsame. now apply subsets_run.
Qed.

(** C8. A call of [subsets] that returns, on any arguments, leaves the
    input sequence as it was and changes the result container only by
    inserting sequences before the insert iterator's position: the elements
    the container held are kept, in their order. *)
Theorem subsets_frame fuel destination first last m u m' :
  subsets fuel destination first last m = Ok (u, m') ->
  inputToGetSubsets m' = inputToGetSubsets m /\
  exists out, result m' = splice (result m) (iter destination) out.
Proof.
  unfold subsets. intros Hrun.
  apply bind_inv in Hrun as (d' & m1 & Hcore & Hret).
  unfold ret in Hret. injection Hret as _ <-.
  apply subsetsCore_frame in Hcore as (out & -> & _ & _).
  split; [reflexivity|now exists out].
Qed.

(** C9. For every input of length N the call returns: N + 1 stack frames
    are enough, the entry call of [subsetsCore] and one nested call per
    element of the remainder, each on a remainder one element shorter.
    A call of [subsetsCore] on a remainder of distance d returns within
    d + 1 frames, and does not within d. *)
Theorem subsets_terminates fuel destination first last m :
  well_formed m destination first last ->
  (length (input_range m first last) < fuel)%nat ->
  (exists m', subsets fuel destination first last m = Ok (tt, m')) /\
  (forall inputSequence ib ie,
     Vector.valid_range inputSequence ib ie = true ->
     (exists d' m',
        subsetsCore (S (Z.to_nat (distance first last))) destination
          first last inputSequence ib ie m = Ok (d', m')) /\
     subsetsCore (Z.to_nat (distance first last)) destination
       first last inputSequence ib ie m = Err OutOfFuel) /\
  (first < last ->
   well_formed m destination (first + 1) last /\
   distance (first + 1) last = distance first last - 1 /\
   0 <= distance (first + 1) last).
Proof.
  intros Hwf Hfuel. split; [|split].
  - eexists. now apply subsets_run.
  - intros inputSequence ib ie Hin. split.
    + do 2 eexists. apply subsetsCore_run; [exact Hwf|exact Hin|lia].
    + apply subsetsCore_out_of_fuel; [exact Hwf|exact Hin|lia].
  - intros Hlt. destruct Hwf as [Hrem Hit].
    apply valid_range_spec in Hrem. repeat split; try tauto.
    + apply valid_range_spec. lia.
    + unfold distance. lia.
    + unfold distance. lia.
Qed.

(** C10. The sequences a call writes correspond one to one to the subsets of
    the positions 0, ..., N - 1 of its input: the k-th sequence written is
    drawn from the k-th position list of [positions N], and [positions N]
    lists every strictly increasing list of positions below N, that is every
    subset of the positions, exactly once. *)
Theorem results_biject_with_position_subsets
    fuel destination first last m :
  well_formed m destination first last ->
  (length (input_range m first last) < fuel)%nat ->
  let N := length (input_range m first last) in
  exists out,
    subsets fuel destination first last m
      = Ok (tt, emitted m destination out) /\
    Forall2 (drawn_from (input_range m first last)) (positions N) out /\
    NoDup (positions N) /\
    (forall ps, In ps (positions N) <->
                increasing ps /\ Forall (fun i => (i < N)%nat) ps) /\
    length (positions N) = (2 ^ N)%nat.
Proof.
  intros Hwf Hfuel N. exists (generatePowerset (input_range m first last)).
  split; [now apply subsets_run|].
  split; [apply generatePowerset_drawn|].
  split; [apply NoDup_positions|].
  split; [apply In_positions|].
  unfold positions, generatePowerset.
  now rewrite powerset_from_length, length_seq.
Qed.
End Claims.

(** C2. The sequences are written in the include-before-exclude order.
    At every call of [subsetsCore] on a remainder with head [h], the nested
    call that appends [h] to the accumulated sequence writes all its
    sequences [out_incl] first, and the nested call that leaves [h] out
    writes its sequences [out_excl] behind them; the call as a whole has
    written [out_incl ++ out_excl].  So [subsets] writes its input's
    [generatePowerset], the enumeration defined by that order: for [0] the
    sequences [0], [], and for [0,1,2] the sequences [0,1,2], [0,1], [0,2],
    [0], [1,2], [1], [2], []. *)
Theorem emission_order_include_before_exclude :
  (forall (E : Type) fuel destination first last inputSequence ib ie
          (m : memory E),
     well_formed m destination first last ->
     Vector.valid_range inputSequence ib ie = true ->
     first < last ->
     (Z.to_nat (distance first last) <= fuel)%nat ->
     exists h out_incl out_excl d1 d2,
       input_range m first (first + 1) = [h] /\
       subsetsCore fuel destination (first + 1) last
         (Vector.slice inputSequence ib ie ++ [h]) 0
         (Vector.size (Vector.slice inputSequence ib ie ++ [h])) m
         = Ok (d1, emitted m destination out_incl) /\
       subsetsCore fuel d1 (first + 1) last inputSequence ib ie
         (emitted m destination out_incl)
         = Ok (d2, emitted m destination (out_incl ++ out_excl)) /\
       subsetsCore (S fuel) destination first last inputSequence ib ie m
         = Ok (d2, emitted m destination (out_incl ++ out_excl))) /\
  (forall (E : Type) fuel destination first last (m : memory E),
     well_formed m destination first last ->
     (length (input_range m first last) < fuel)%nat ->
     subsets fuel destination first last m
       = Ok (tt, emitted m destination
                   (generatePowerset (input_range m first last)))) /\
  subsets 2 (InsertIterator 0) 0 1 (Memory [0] [])
    = Ok (tt, Memory [0] [[0]; []]) /\
  subsets 4 (InsertIterator 0) 0 3 (Memory [0; 1; 2] [])
    = Ok (tt, Memory [0; 1; 2]
                [[0; 1; 2]; [0; 1]; [0; 2]; [0]; [1; 2]; [1]; [2]; []]).
Proof.
  split; [|split; [|split; reflexivity]].
  - intros E fuel destination first last inputSequence ib ie m
      [Hrem Hit] Hin Hlt Hfuel.
    pose proof Hrem as Hrem'. apply valid_range_spec in Hrem'.
    unfold distance in Hfuel.
    destruct (slice_head _ _ _ Hrem Hlt) as (h & Hh & Hcons).
    set (acc := Vector.slice inputSequence ib ie).
    set (rest := Vector.slice (inputToGetSubsets m) (first + 1) last) in *.
    set (out_incl := powerset_from (acc ++ [h]) rest).
    set (out_excl := powerset_from acc rest).
    exists h, out_incl, out_excl.
    exists (InsertIterator (iter destination + Vector.size out_incl)).
    exists (InsertIterator
              (iter destination + Vector.size (out_incl ++ out_excl))).
    split; [exact Hh|]. split; [|split].
    + rewrite subsetsCore_run.
      * now rewrite slice_full.
      * split; [apply valid_range_spec; lia|exact Hit].
      * apply valid_range_spec. unfold Vector.size. lia.
      * unfold distance. lia.
    + rewrite subsetsCore_run.
      * unfold emitted. cbn [inputToGetSubsets result iter].
        fold acc rest out_excl.
        rewrite splice_splice by exact Hit. unfold Vector.size.
        now rewrite length_app, Nat2Z.inj_add, Z.add_assoc.
      * split; cbn [emitted inputToGetSubsets result iter].
        -- apply valid_range_spec. lia.
        -- rewrite splice_length. sizes. lia.
      * exact Hin.
      * unfold distance. lia.
    + rewrite subsetsCore_run.
      * fold acc. rewrite Hcons. reflexivity.
      * now split.
      * exact Hin.
      * unfold distance. lia.
  - intros E fuel destination first last m. apply subsets_run.
Qed.

(** ** The theorems at concrete calls *)

Lemma subsets_writes_two_pow_N_witness :
  exists out,
    subsets 4 (InsertIterator 0) 0 3 (Memory [0; 1; 2] [])
      = Ok (tt, emitted (Memory [0; 1; 2] []) (InsertIterator 0) out) /\
    Vector.size out = 8 /\
    Vector.size (result (emitted (Memory [0; 1; 2] []) (InsertIterator 0) out))
      = 8.
Proof.
  apply (subsets_writes_two_pow_N 4 (InsertIterator 0) 0 3
           (Memory [0; 1; 2] [])).
  - split; [reflexivity|cbn; lia].
  - vm_compute. lia.
Defined.

Lemma emission_order_include_before_exclude_witness :
  exists h out_incl out_excl d1 d2,
    input_range (Memory [0; 1; 2] []) 0 1 = [h] /\
    subsetsCore 3 (InsertIterator 0) 1 3 ([] ++ [h]) 0
      (Vector.size ([] ++ [h])) (Memory [0; 1; 2] [])
      = Ok (d1, emitted (Memory [0; 1; 2] []) (InsertIterator 0) out_incl) /\
    subsetsCore 3 d1 1 3 [] 0 0
      (emitted (Memory [0; 1; 2] []) (InsertIterator 0) out_incl)
      = Ok (d2, emitted (Memory [0; 1; 2] []) (InsertIterator 0)
                  (out_incl ++ out_excl)) /\
    subsetsCore 4 (InsertIterator 0) 0 3 [] 0 0 (Memory [0; 1; 2] [])
      = Ok (d2, emitted (Memory [0; 1; 2] []) (InsertIterator 0)
                  (out_incl ++ out_excl)).
Proof.
  apply (proj1 emission_order_include_before_exclude Z 3%nat
           (InsertIterator 0) 0 3 [] 0 0 (Memory [0; 1; 2] [])).
  - split; [reflexivity|cbn; lia].
  - reflexivity.
  - lia.
  - vm_compute. lia.
Defined.

Lemma results_drawn_from_increasing_positions_witness :
  exists out,
    subsets 3 (InsertIterator 1) 1 3 (Memory [4; 5; 5; 6] [[7]; [8]])
      = Ok (tt, emitted (Memory [4; 5; 5; 6] [[7]; [8]])
                  (InsertIterator 1) out) /\
    Forall (fun r => exists ps, increasing ps /\ NoDup ps /\
                                drawn_from [5; 5] ps r) out.
Proof.
  apply (results_drawn_from_increasing_positions 3 (InsertIterator 1) 1 3
           (Memory [4; 5; 5; 6] [[7]; [8]])).
  - split; [reflexivity|cbn; lia].
  - vm_compute. lia.
Defined.

Lemma empty_and_full_occur_once_witness :
  exists out,
    subsets 4 (InsertIterator 0) 0 3 (Memory [0; 1; 2] [])
      = Ok (tt, emitted (Memory [0; 1; 2] []) (InsertIterator 0) out) /\
    occurs_once [] out /\ occurs_once [0; 1; 2] out.
Proof.
  apply (empty_and_full_occur_once 4 (InsertIterator 0) 0 3
           (Memory [0; 1; 2] [])).
  - split; [reflexivity|cbn; lia].
  - vm_compute. lia.
Defined.

Lemma empty_input_yields_empty_subsequence_witness :
  subsets 1 (InsertIterator 1) 0 0 (Memory (@nil Z) [[7]; [8]])
    = Ok (tt, Memory [] [[7]; []; [8]]).
Proof.
  apply (empty_input_yields_empty_subsequence 1 (InsertIterator 1) 0 0
           (Memory (@nil Z) [[7]; [8]])).
  - split; [reflexivity|cbn; lia].
  - reflexivity.
  - lia.
Defined.

Lemma subsets_deterministic_witness :
  exists out,
    subsets 3 (InsertIterator 0) 0 2 (Memory [5; 6] [])
      = Ok (tt, emitted (Memory [5; 6] []) (InsertIterator 0) out) /\
    subsets 7 (InsertIterator 1) 1 3 (Memory [4; 5; 6] [[7]; [8]])
      = Ok (tt, emitted (Memory [4; 5; 6] [[7]; [8]]) (InsertIterator 1) out).
Proof.
  apply (subsets_deterministic 3 7 (InsertIterator 0) (InsertIterator 1)
           0 2 1 3 (Memory [5; 6] []) (Memory [4; 5; 6] [[7]; [8]])).
  - reflexivity.
  - split; [reflexivity|cbn; lia].
  - split; [reflexivity|cbn; lia].
  - vm_compute. lia.
  - vm_compute. lia.
Defined.

Lemma subsets_frame_witness :
  inputToGetSubsets (Memory [5; 6] [[7]; [5; 6]; [5]; [6]; []; [8]]) = [5; 6] /\
  exists out,
    result (Memory [5; 6] [[7]; [5; 6]; [5]; [6]; []; [8]])
      = splice [[7]; [8]] 1 out.
Proof.
  apply (subsets_frame 3 (InsertIterator 1) 0 2 (Memory [5; 6] [[7]; [8]]) tt).
  reflexivity.
Defined.

Lemma subsets_terminates_witness :
  (exists m',
     subsets 4 (InsertIterator 0) 0 3 (Memory [0; 1; 2] []) = Ok (tt, m')) /\
  (forall inputSequence ib ie,
     Vector.valid_range inputSequence ib ie = true ->
     (exists d' m',
        subsetsCore 4 (InsertIterator 0) 0 3 inputSequence ib ie
          (Memory [0; 1; 2] []) = Ok (d', m')) /\
     subsetsCore 3 (InsertIterator 0) 0 3 inputSequence ib ie
       (Memory [0; 1; 2] []) = Err OutOfFuel) /\
  (0 < 3 ->
   well_formed (Memory [0; 1; 2] []) (InsertIterator 0) (0 + 1) 3 /\
   distance (0 + 1) 3 = distance 0 3 - 1 /\
   0 <= distance (0 + 1) 3).
Proof.
  apply (subsets_terminates 4 (InsertIterator 0) 0 3 (Memory [0; 1; 2] [])).
  - split; [reflexivity|cbn; lia].
  - vm_compute. lia.
Defined.

Lemma results_biject_with_position_subsets_witness :
  exists out,
    subsets 3 (InsertIterator 0) 0 2 (Memory [5; 5] [])
      = Ok (tt, emitted (Memory [5; 5] []) (InsertIterator 0) out) /\
    Forall2 (drawn_from [5; 5]) (positions 2) out /\
    NoDup (positions 2) /\
    (forall ps, In ps (positions 2) <->
                increasing ps /\ Forall (fun i => (i < 2)%nat) ps) /\
    length (positions 2) = 4%nat.
Proof.
  apply (results_biject_with_position_subsets 3 (InsertIterator 0) 0 2
           (Memory [5; 5] [])).
  - split; [reflexivity|cbn; lia].
  - vm_compute. lia.
Defined.

(** ** How calls compose and what the enumeration contains *)

Section Composition.
Context {E : Type}.
Implicit Types (m : memory E) (destination : insert_iterator).

Lemma powerset_from_app (rem : list E) : forall acc,
  powerset_from acc rem = map (app acc) (generatePowerset rem).
Proof.
  unfold generatePowerset.
  induction rem as [|h rest IH]; intros acc; cbn [powerset_from map app].
  - now rewrite app_nil_r.
  - rewrite map_app, (IH (acc ++ [h])), (IH [h]), (IH acc), map_map.
    f_equal. apply map_ext. intros r. now rewrite <- app_assoc.
Qed.

Lemma generatePowerset_cons (h : E) rest :
  generatePowerset (h :: rest) =
  map (cons h) (generatePowerset rest) ++ generatePowerset rest.
Proof.
  unfold generatePowerset at 1. cbn [powerset_from app].
  now rewrite (powerset_from_app rest [h]).
Qed.

Lemma generatePowerset_rev_powerset (l : list E) :
  generatePowerset l = rev (powerset l).
Proof.
  induction l as [|h rest IH]; [reflexivity|].
  rewrite generatePowerset_cons, IH. cbn [powerset].
  now rewrite rev_app_distr, map_rev.
Qed.

Lemma splice_before (c : list (list E)) pos out1 out2 :
  0 <= pos <= Vector.size c ->
  splice (splice c pos out1) pos out2 = splice c pos (out2 ++ out1).
Proof.
  unfold Vector.size, splice. intros H.
  set (n := Z.to_nat pos).
  assert (Hn : length (firstn n c) = n) by (rewrite length_firstn; lia).
  destruct (firstn_skipn_prefix (firstn n c) (out1 ++ skipn n c)) as [H1 H2].
  rewrite Hn in H1, H2. rewrite H1, H2. now rewrite <- app_assoc.
Qed.

Lemma drawn_at_index (v : list E) ts r :
  increasing ts -> drawn_from v ts r ->
  exists k, nth_error (positions (length v)) k = Some ts /\
            nth_error (generatePowerset v) k = Some r.
Proof.
  intros Hts Hdt.
  assert (Hin : In ts (positions (length v))).
  { apply In_positions. split; [exact Hts|].
    exact (drawn_from_bound _ _ _ Hdt). }
  apply In_nth_error in Hin as (k & Hk). exists k. split; [exact Hk|].
  destruct (Forall2_at _ _ _ (generatePowerset_drawn v) _ _ Hk)
    as (r' & Hr' & Hd').
  now rewrite (drawn_from_functional _ _ _ _ Hdt Hd').
Qed.

Lemma In_generatePowerset (v r : list E) :
  In r (generatePowerset v) <->
  exists ps, increasing ps /\ drawn_from v ps r.
Proof.
  split.
  - intros Hin.
    pose proof (Forall2_covered _ _ _ (generatePowerset_drawn v)) as Hcov.
    rewrite Forall_forall in Hcov.
    destruct (Hcov r Hin) as (ps & Hps & Hd).
    apply In_positions in Hps as [Hinc _]. now exists ps.
  - intros (ps & Hinc & Hd).
    destruct (drawn_at_index v ps r Hinc Hd) as (k & _ & Hk).
    exact (nth_error_In _ _ Hk).
Qed.

(** In a sequence without duplicates the values determine the positions. *)
Lemma drawn_from_positions_unique (v : list E) r : forall ps qs,
  NoDup v -> drawn_from v ps r -> drawn_from v qs r -> ps = qs.
Proof.
  intros ps qs Hnd Hp. revert qs.
  induction Hp as [|i x ps r Hi _ IH]; intros qs Hq; inversion Hq; subst;
    [reflexivity|].
  f_equal; [|now apply IH].
  apply (proj1 (NoDup_nth_error v) Hnd).
  - apply nth_error_Some. congruence.
  - congruence.
Qed.

Lemma NoDup_generatePowerset (v : list E) :
  NoDup (generatePowerset v) <-> NoDup v.
Proof.
  split; intros Hnd.
  - apply NoDup_nth_error. intros i j Hi Hij.
    destruct (nth_error v i) as [x|] eqn:Hx;
      [|apply nth_error_None in Hx; lia].
    destruct (Nat.eq_dec i j) as [Heq|Hne]; [exact Heq|exfalso].
    assert (Hdi : drawn_from v [i] [x]) by (repeat constructor; exact Hx).
    assert (Hdj : drawn_from v [j] [x])
      by (repeat constructor; congruence).
    destruct (drawn_at_index v [i] [x]) as (k1 & Hp1 & Hr1);
      [repeat constructor|exact Hdi|].
    destruct (drawn_at_index v [j] [x]) as (k2 & Hp2 & Hr2);
      [repeat constructor|exact Hdj|].
    assert (Hk : k1 = k2).
    { apply (proj1 (NoDup_nth_error (generatePowerset v)) Hnd).
      - apply nth_error_Some. congruence.
      - congruence. }
    subst k2. congruence.
  - apply NoDup_nth_error. intros k1 k2 Hk1 Heq.
    destruct (nth_error (generatePowerset v) k1) as [r|] eqn:Hr1;
      [|apply nth_error_None in Hr1; lia].
    symmetry in Heq.
    pose proof (generatePowerset_drawn v) as Hall.
    assert (Hlen := Forall2_length Hall).
    destruct (nth_error (positions (length v)) k1) as [ps|] eqn:Hp1;
      [|apply nth_error_None in Hp1; lia].
    destruct (nth_error (positions (length v)) k2) as [qs|] eqn:Hp2.
    2:{ apply nth_error_None in Hp2.
        assert (nth_error (generatePowerset v) k2 <> None) by congruence.
        apply nth_error_Some in H. lia. }
    destruct (Forall2_at _ _ _ Hall _ _ Hp1) as (r1 & Hr1' & Hd1).
    destruct (Forall2_at _ _ _ Hall _ _ Hp2) as (r2 & Hr2' & Hd2).
    assert (r1 = r) by congruence. assert (r2 = r) by congruence. subst r1 r2.
    assert (Hpq : ps = qs)
      by exact (drawn_from_positions_unique v r ps qs Hnd Hd1 Hd2).
    apply (proj1 (NoDup_nth_error (positions (length v)))
             (NoDup_positions (length v))).
    + apply nth_error_Some. congruence.
    + congruence.
Qed.

Lemma generatePowerset_total (v : list E) :
  (2 * length (concat (generatePowerset v)) = length v * 2 ^ length v)%nat.
Proof.
  induction v as [|h rest IH]; [reflexivity|].
  rewrite generatePowerset_cons, concat_app, length_app.
  assert (Hcons : forall X : list (list E),
            length (concat (map (cons h) X))
            = (length X + length (concat X))%nat).
  { induction X as [|x X IHX]; [reflexivity|].
    cbn [map concat length app]. rewrite !length_app, IHX.
    cbn [length]. lia. }
  rewrite Hcons. unfold generatePowerset at 1.
  rewrite powerset_from_length. cbn [length Nat.pow]. nia.
Qed.
End Composition.

(** ** One index for every set of positions *)

Section Multiplicity.

Lemma index_of_In ps : forall P,
  In ps P -> nth_error P (index_of ps P) = Some ps.
Proof.
  induction P as [|qs rest IH]; intros Hin; [destruct Hin|].
  cbn [index_of]. destruct (list_eq_dec Nat.eq_dec ps qs) as [->|Hne].
  - reflexivity.
  - cbn [nth_error]. apply IH. destruct Hin as [Heq|Hin]; [|exact Hin].
    now elim Hne.
Qed.

Lemma index_of_nth : forall P k ps,
  NoDup P -> nth_error P k = Some ps -> index_of ps P = k.
Proof.
  induction P as [|qs rest IH]; intros k ps Hnd Hk; [now destruct k|].
  cbn [index_of]. apply NoDup_cons_iff in Hnd as [Hnotin Hnd].
  destruct k as [|k]; cbn [nth_error] in Hk.
  - injection Hk as ->.
    now destruct (list_eq_dec Nat.eq_dec ps ps) as [_|Hne]; [|elim Hne].
  - destruct (list_eq_dec Nat.eq_dec ps qs) as [->|Hne].
    + elim Hnotin. exact (nth_error_In _ _ Hk).
    + f_equal. now apply IH.
Qed.

Lemma NoDup_map_on {A B} (f : A -> B) (l : list A) :
  (forall x y, In x l -> In y l -> f x = f y -> x = y) ->
  NoDup l -> NoDup (map f l).
Proof.
  induction l as [|a l IH]; intros Hinj Hnd; [constructor|].
  apply NoDup_cons_iff in Hnd as [Hnotin Hnd]. cbn [map]. constructor.
  - intros Hin. apply in_map_iff in Hin as (b & Hfb & Hb).
    apply Hnotin.
    rewrite (Hinj a b); [exact Hb|now left|now right|now symmetry].
  - apply IH; [|exact Hnd].
    intros x y Hx Hy. apply Hinj; now right.
Qed.
End Multiplicity.

(** C5. Results are not deduplicated by value.  Every set of positions of
    the input, given as a strictly increasing list [ps], has an index of its
    own among the sequences written: the sequence at [index ps] is the one
    drawn from [ps], different position lists have different indices, and
    every index is the index of a position list.  So a sequence of values
    that n different position lists [pss] draw is written at n different
    indices, all of them emitted.  The input [5, 5] yields the four
    sequences [5,5], [5], [5], [], in this order. *)
Theorem results_not_deduplicated :
  (forall (E : Type) fuel destination first last (m : memory E),
     well_formed m destination first last ->
     (length (input_range m first last) < fuel)%nat ->
     exists out (index : list nat -> nat),
       subsets fuel destination first last m
         = Ok (tt, emitted m destination out) /\
       (forall ps r,
          increasing ps -> drawn_from (input_range m first last) ps r ->
          nth_error out (index ps) = Some r) /\
       (forall ps qs r r',
          increasing ps -> drawn_from (input_range m first last) ps r ->
          increasing qs -> drawn_from (input_range m first last) qs r' ->
          index ps = index qs -> ps = qs) /\
       (forall k r,
          nth_error out k = Some r ->
          exists ps, increasing ps /\
                     drawn_from (input_range m first last) ps r /\
                     index ps = k) /\
       (forall pss r,
          NoDup pss ->
          (forall ps, In ps pss ->
             increasing ps /\ drawn_from (input_range m first last) ps r) ->
          NoDup (map index pss) /\
          length (map index pss) = length pss /\
          forall k, In k (map index pss) -> nth_error out k = Some r)) /\
  subsets 3 (InsertIterator 0) 0 2 (Memory [5; 5] [])
    = Ok (tt, Memory [5; 5] [[5; 5]; [5]; [5]; []]).
Proof.
  split; [|reflexivity].
  intros E fuel destination first last m Hwf Hfuel.
  set (v := input_range m first last).
  set (P := positions (length v)).
  exists (generatePowerset v), (fun ps => index_of ps P).
  pose proof (generatePowerset_drawn v) as Hall. fold P in Hall.
  assert (HinP : forall ps r, increasing ps -> drawn_from v ps r -> In ps P).
  { intros ps r Hinc Hd. apply In_positions. split; [exact Hinc|].
    exact (drawn_from_bound _ _ _ Hd). }
  assert (Hhit : forall ps r, increasing ps -> drawn_from v ps r ->
            nth_error (generatePowerset v) (index_of ps P) = Some r).
  { intros ps r Hinc Hd.
    pose proof (index_of_In ps P (HinP ps r Hinc Hd)) as Hk.
    destruct (Forall2_at _ _ _ Hall _ _ Hk) as (r' & Hr' & Hd').
    now rewrite (drawn_from_functional _ _ _ _ Hd Hd'). }
  assert (Hinj : forall ps qs r r',
            increasing ps -> drawn_from v ps r ->
            increasing qs -> drawn_from v qs r' ->
            index_of ps P = index_of qs P -> ps = qs).
  { intros ps qs r r' Hp Hdp Hq Hdq Heq.
    pose proof (index_of_In ps P (HinP ps r Hp Hdp)) as H1.
    pose proof (index_of_In qs P (HinP qs r' Hq Hdq)) as H2.
    rewrite Heq in H1. congruence. }
  split; [now apply subsets_run|].
  split; [exact Hhit|]. split; [exact Hinj|]. split.
  - intros k r Hk.
    assert (Hlen := Forall2_length Hall).
    destruct (nth_error P k) as [ps|] eqn:Hp.
    2:{ apply nth_error_None in Hp.
        assert (Hs : nth_error (generatePowerset v) k <> None) by congruence.
        apply nth_error_Some in Hs. lia. }
    destruct (Forall2_at _ _ _ Hall _ _ Hp) as (r' & Hr' & Hd).
    assert (r' = r) by congruence. subst r'.
    exists ps. split; [|split; [exact Hd|]].
    + pose proof (nth_error_In _ _ Hp) as Hin.
      apply In_positions in Hin. tauto.
    + apply index_of_nth; [apply NoDup_positions|exact Hp].
  - intros pss r Hnd Hpss. split; [|split].
    + apply NoDup_map_on; [|exact Hnd].
      intros ps qs Hps Hqs.
      destruct (Hpss ps Hps) as [Hp Hdp]. destruct (Hpss qs Hqs) as [Hq Hdq].
      exact (Hinj ps qs r r Hp Hdp Hq Hdq).
    + apply length_map.
    + intros k Hk. apply in_map_iff in Hk as (ps & <- & Hps).
      destruct (Hpss ps Hps) as [Hp Hdp]. exact (Hhit ps r Hp Hdp).
Qed.

Lemma results_not_deduplicated_witness :
  exists out (index : list nat -> nat),
    subsets 4 (InsertIterator 0) 0 3 (Memory [5; 5; 5] [])
      = Ok (tt, emitted (Memory [5; 5; 5] []) (InsertIterator 0) out) /\
    (forall ps r,
       increasing ps -> drawn_from [5; 5; 5] ps r ->
       nth_error out (index ps) = Some r) /\
    (forall ps qs r r',
       increasing ps -> drawn_from [5; 5; 5] ps r ->
       increasing qs -> drawn_from [5; 5; 5] qs r' ->
       index ps = index qs -> ps = qs) /\
    (forall k r,
       nth_error out k = Some r ->
       exists ps, increasing ps /\ drawn_from [5; 5; 5] ps r /\ index ps = k) /\
    (forall pss r,
       NoDup pss ->
       (forall ps, In ps pss -> increasing ps /\ drawn_from [5; 5; 5] ps r) ->
       NoDup (map index pss) /\
       length (map index pss) = length pss /\
       forall k, In k (map index pss) -> nth_error out k = Some r).
Proof.
  apply (proj1 results_not_deduplicated Z 4%nat (InsertIterator 0) 0 3
           (Memory [5; 5; 5] [])).
  - split; [reflexivity|cbn; lia].
  - vm_compute. lia.
Defined.

(** ** The result at a given index *)

Section Indexing.

Lemma testbit_below (k n : nat) :
  (k < 2 ^ n)%nat -> Nat.testbit k n = false.
Proof.
  intros H. rewrite Nat.testbit_eqb, Nat.div_small by exact H. reflexivity.
Qed.

Lemma testbit_top (k n : nat) :
  (2 ^ n <= k < 2 ^ S n)%nat -> Nat.testbit k n = true.
Proof.
  intros H. rewrite Nat.testbit_eqb.
  replace k with ((k - 2 ^ n) + 1 * 2 ^ n)%nat by lia.
  rewrite Nat.div_add by (apply Nat.pow_nonzero; lia).
  rewrite Nat.div_small by (cbn [Nat.pow] in H; lia). reflexivity.
Qed.

Lemma testbit_drop_top (k n j : nat) :
  (2 ^ n <= k)%nat -> (j < n)%nat ->
  Nat.testbit (k - 2 ^ n) j = Nat.testbit k j.
Proof.
  intros Hk Hj.
  rewrite <- (Nat.mod_pow2_bits_low (k - 2 ^ n) n j Hj).
  rewrite <- (Nat.mod_pow2_bits_low k n j Hj).
  f_equal.
  replace k with ((k - 2 ^ n) + 1 * 2 ^ n)%nat at 2 by lia.
  now rewrite Nat.Div0.mod_add.
Qed.

(** The [k]-th position list over [s], ..., [s + n - 1] holds the position
    [i] exactly when the bit of [k] that belongs to [i] is clear; the first
    position has the highest bit. *)
Lemma positions_at_index n : forall s k ps,
  nth_error (generatePowerset (seq s n)) k = Some ps ->
  forall i, In i ps <->
            (s <= i < s + n)%nat /\ Nat.testbit k (s + n - 1 - i) = false.
Proof.
  induction n as [|n IH]; intros s k ps Hk i.
  - destruct k as [|k]; cbn in Hk; [|now destruct k].
    injection Hk as <-. cbn. split; [tauto|lia].
  - cbn [seq] in Hk. rewrite generatePowerset_cons in Hk.
    assert (Hlen : length (generatePowerset (seq (S s) n)) = (2 ^ n)%nat).
    { unfold generatePowerset. now rewrite powerset_from_length, length_seq. }
    destruct (Nat.lt_ge_cases k (2 ^ n)) as [Hlt|Hge].
    + rewrite nth_error_app1 in Hk by (rewrite length_map; lia).
      rewrite nth_error_map in Hk.
      destruct (nth_error (generatePowerset (seq (S s) n)) k) as [qs|] eqn:Hq;
        [|discriminate].
      injection Hk as <-. cbn [In]. rewrite (IH _ _ _ Hq i).
      destruct (Nat.eq_dec s i) as [<-|Hne].
      * replace (s + S n - 1 - s)%nat with n by lia.
        rewrite (testbit_below k n Hlt). split; [intros _; split; [lia|easy]|].
        now left.
      * replace (S s + n - 1 - i)%nat with (s + S n - 1 - i)%nat by lia.
        split; [intros [?|[? ?]]; [contradiction|split; [lia|assumption]]|].
        intros [? ?]. right. split; [lia|assumption].
    + assert (Hbound : (k < 2 ^ S n)%nat).
      { assert (Hs : nth_error
                       (map (cons s) (generatePowerset (seq (S s) n)) ++
                        generatePowerset (seq (S s) n)) k <> None)
          by congruence.
        apply nth_error_Some in Hs.
        rewrite length_app, length_map, Hlen in Hs. cbn [Nat.pow]. lia. }
      rewrite nth_error_app2 in Hk by (rewrite length_map; lia).
      rewrite length_map, Hlen in Hk. rewrite (IH _ _ _ Hk i).
      destruct (Nat.eq_dec s i) as [<-|Hne].
      * replace (s + S n - 1 - s)%nat with n by lia.
        rewrite (testbit_top k n) by lia.
        split; [lia|intros [_ ?]; discriminate].
      * destruct (Nat.lt_ge_cases i (s + S n)) as [Hin|Hout]; [|lia].
        destruct (Nat.lt_ge_cases i s) as [Hlow|Hhigh]; [lia|].
        replace (S s + n - 1 - i)%nat with (s + S n - 1 - i)%nat by lia.
        rewrite testbit_drop_top by lia. split; intros [? ?]; split;
          try assumption; lia.
Qed.
End Indexing.

(** ** Further properties of [subsets] and [subsetsCore] *)

Section Further.
Context {E : Type}.
Implicit Types (m : memory E) (destination : insert_iterator).

(** X3. [subsets] takes its insert iterator by value and does not hand the
    advanced iterator back; the insertions of the call leave the caller's
    copy stale, so a further call needs an iterator made anew on the
    container.  With a new iterator at the offset of the first call the
    sequences of the second call end up before those of the first; with a
    new iterator behind the 2^N sequences of the first call they end up
    behind them. *)
Theorem subsets_again_with_new_iterator
    fuel1 fuel2 destination first1 last1 first2 last2 m :
  well_formed m destination first1 last1 ->
  Vector.valid_range (inputToGetSubsets m) first2 last2 = true ->
  (length (input_range m first1 last1) < fuel1)%nat ->
  (length (input_range m first2 last2) < fuel2)%nat ->
  let out1 := generatePowerset (input_range m first1 last1) in
  let out2 := generatePowerset (input_range m first2 last2) in
  let m1 := emitted m destination out1 in
  subsets fuel1 destination first1 last1 m = Ok (tt, m1) /\
  subsets fuel2 (inserter (iter destination)) first2 last2 m1
    = Ok (tt, emitted m destination (out2 ++ out1)) /\
  subsets fuel2
    (inserter (iter destination
               + 2 ^ Vector.size (input_range m first1 last1)))
    first2 last2 m1
    = Ok (tt, emitted m destination (out1 ++ out2)).
Proof.
  intros Hwf Hrange Hfuel1 Hfuel2 out1 out2 m1.
  pose proof Hwf as [_ Hit].
  assert (Hsize : Vector.size (result m1)
                  = Vector.size (result m) + Vector.size out1).
  { unfold m1. cbn [emitted result]. apply splice_length. }
  assert (Hpow : 2 ^ Vector.size (input_range m first1 last1)
                 = Vector.size out1)
    by (symmetry; apply generatePowerset_size).
  split; [now apply subsets_run|]. split.
  - rewrite subsets_run.
    + unfold m1, emitted, input_range, inserter.
      cbn [inputToGetSubsets result iter].
      now rewrite splice_before by exact Hit.
    + split; [exact Hrange|]. unfold inserter. cbn [iter].
      rewrite Hsize. sizes. lia.
    + exact Hfuel2.
  - rewrite subsets_run.
    + rewrite Hpow. unfold m1, emitted, input_range, inserter.
      cbn [inputToGetSubsets result iter].
      now rewrite splice_splice by exact Hit.
    + split; [exact Hrange|]. unfold inserter. cbn [iter].
      rewrite Hsize, Hpow. sizes. lia.
    + exact Hfuel2.
Qed.

(** X4. [subsetsCore] writes what [subsets] writes for the remainder, with
    the accumulated sequence put in front of every result, and leaves the
    insert iterator, which it takes by reference, behind the 2^d sequences
    written, d being the distance of the remainder range. *)
Theorem subsetsCore_prefixes_accumulated
    fuel destination first last inputSequence ib ie m :
  well_formed m destination first last ->
  Vector.valid_range inputSequence ib ie = true ->
  (Z.to_nat (distance first last) < fuel)%nat ->
  subsetsCore fuel destination first last inputSequence ib ie m =
  Ok (InsertIterator (iter destination + 2 ^ distance first last),
      emitted m destination
        (map (app (Vector.slice inputSequence ib ie))
             (generatePowerset (input_range m first last)))).
Proof.
  intros Hwf Hin Hfuel. rewrite subsetsCore_run by assumption.
  fold (input_range m first last).
  unfold Vector.size at 1.
  rewrite powerset_from_length, Nat2Z.inj_pow.
  rewrite (input_range_length _ _ _ (proj1 Hwf)), powerset_from_app.
  destruct Hwf as [Hrem _]. apply valid_range_spec in Hrem.
  unfold distance. rewrite Z2Nat.id by lia. reflexivity.
Qed.

(** X5. [subsets] writes the subsets that the Lisp implementation of the
    source's comment returns, in the reverse of its order. *)
Theorem subsets_reverses_lisp_powerset fuel destination first last m :
  well_formed m destination first last ->
  (length (input_range m first last) < fuel)%nat ->
  subsets fuel destination first last m
  = Ok (tt, emitted m destination (rev (powerset (input_range m first last)))).
Proof.
  intros Hwf Hfuel. rewrite <- generatePowerset_rev_powerset.
  now apply subsets_run.
Qed.

(** X6. A sequence is among those a call of [subsets] writes exactly when it
    consists of the elements at some strictly increasing positions of the
    input: every subsequence of the input is written, and nothing else. *)
Theorem written_iff_subsequence fuel destination first last m :
  well_formed m destination first last ->
  (length (input_range m first last) < fuel)%nat ->
  exists out,
    subsets fuel destination first last m
      = Ok (tt, emitted m destination out) /\
    forall r, In r out <->
              exists ps, increasing ps /\
                         drawn_from (input_range m first last) ps r.
Proof.
  intros Hwf Hfuel. exists (generatePowerset (input_range m first last)).
  split; [now apply subsets_run|]. apply In_generatePowerset.
Qed.

(** X7. The sequences a call of [subsets] writes are pairwise different
    exactly when the elements of the input are pairwise different. *)
Theorem results_distinct_iff_input_distinct fuel destination first last m :
  well_formed m destination first last ->
  (length (input_range m first last) < fuel)%nat ->
  exists out,
    subsets fuel destination first last m
      = Ok (tt, emitted m destination out) /\
    (NoDup out <-> NoDup (input_range m first last)).
Proof.
  intros Hwf Hfuel. exists (generatePowerset (input_range m first last)).
  split; [now apply subsets_run|]. apply NoDup_generatePowerset.
Qed.

(** X8. The sequences written for an input of length N hold N * 2^(N-1)
    elements in all: twice their number is N * 2^N. *)
Theorem total_elements_written fuel destination first last m :
  well_formed m destination first last ->
  (length (input_range m first last) < fuel)%nat ->
  exists out,
    subsets fuel destination first last m
      = Ok (tt, emitted m destination out) /\
    2 * Vector.size (concat out)
    = Vector.size (input_range m first last)
      * 2 ^ Vector.size (input_range m first last).
Proof.
  intros Hwf Hfuel. exists (generatePowerset (input_range m first last)).
  split; [now apply subsets_run|].
  pose proof (generatePowerset_total (input_range m first last)) as H.
  unfold Vector.size. apply (f_equal Z.of_nat) in H.
  rewrite Nat2Z.inj_mul, Nat2Z.inj_mul, Nat2Z.inj_pow in H. exact H.
Qed.

(** X9. The sequence written at index k (counted from 0) consists of the
    elements at the positions i whose bit N - 1 - i in k is clear: index 0
    is the whole input, index 2^N - 1 the empty sequence, and the first
    element of the input is decided by the highest bit. *)
Theorem result_at_index fuel destination first last m :
  well_formed m destination first last ->
  (length (input_range m first last) < fuel)%nat ->
  let N := length (input_range m first last) in
  exists out,
    subsets fuel destination first last m
      = Ok (tt, emitted m destination out) /\
    forall k r, nth_error out k = Some r ->
      exists ps, increasing ps /\
                 drawn_from (input_range m first last) ps r /\
                 forall i, In i ps <->
                           (i < N)%nat /\ Nat.testbit k (N - 1 - i) = false.
Proof.
  intros Hwf Hfuel N. set (v := input_range m first last) in *.
  exists (generatePowerset v). split; [now apply subsets_run|].
  intros k r Hk.
  pose proof (generatePowerset_drawn v) as Hall.
  assert (Hlen := Forall2_length Hall).
  destruct (nth_error (positions (length v)) k) as [ps|] eqn:Hp.
  2:{ apply nth_error_None in Hp.
      assert (Hs : nth_error (generatePowerset v) k <> None) by congruence.
      apply nth_error_Some in Hs. lia. }
  destruct (Forall2_at _ _ _ Hall _ _ Hp) as (r' & Hr' & Hd).
  assert (r' = r) by congruence. subst r'.
  exists ps. split; [|split; [exact Hd|]].
  - apply nth_error_In, In_positions in Hp. tauto.
  - intros i. unfold positions in Hp.
    rewrite (positions_at_index _ _ _ _ Hp i). fold N. cbn [Nat.add].
    split; intros [? ?]; split; try assumption; lia.
Qed.
End Further.

(** ** What [_tmain] prints *)

Section Printing.
Local Open Scope string_scope.

Lemma string_app_assoc (s1 s2 s3 : string) :
  (s1 ++ s2) ++ s3 = s1 ++ s2 ++ s3.
Proof. induction s1 as [|a s1 IH]; cbn; [reflexivity|now rewrite IH]. Qed.

Lemma string_app_nil_r (s : string) : s ++ "" = s.
Proof. induction s as [|a s IH]; cbn; [reflexivity|now rewrite IH]. Qed.

Lemma count_char_app c (s1 s2 : string) :
  count_char c (s1 ++ s2) = (count_char c s1 + count_char c s2)%nat.
Proof. induction s1 as [|a s1 IH]; cbn; [reflexivity|rewrite IH; lia]. Qed.

(** The loops append to what the stream holds. *)
Lemma print_elements_app inner : forall cout,
  print_elements cout inner = cout ++ print_elements "" inner.
Proof.
  induction inner as [|item rest IH]; intros cout; cbn [print_elements].
  - now rewrite string_app_nil_r.
  - rewrite (IH (cout ++ _)), (IH ("" ++ _)). cbn [append].
    now rewrite !string_app_assoc.
Qed.

Lemma print_result_app res : forall cout,
  print_result cout res = cout ++ print_result "" res.
Proof.
  induction res as [|inner rest IH]; intros cout; cbn [print_result].
  - now rewrite string_app_nil_r.
  - rewrite (IH (print_elements cout inner ++ endl)),
      (IH (print_elements "" inner ++ endl)),
      (print_elements_app inner cout).
    now rewrite !string_app_assoc.
Qed.

Lemma print_elements_cons item rest :
  print_elements "" (item :: rest) =
  print_int item ++ blank ++ print_elements "" rest.
Proof.
  cbn [print_elements]. rewrite print_elements_app. cbn [append].
  now rewrite string_app_assoc.
Qed.

Lemma print_result_cons inner rest :
  print_result "" (inner :: rest) =
  print_elements "" inner ++ endl ++ print_result "" rest.
Proof.
  cbn [print_result]. rewrite print_result_app.
  now rewrite string_app_assoc.
Qed.

(** A printed number holds digits and a minus sign only. *)
Lemma uint_no_separator (d : Decimal.uint) :
  count_char " " (NilEmpty.string_of_uint d) = 0%nat /\
  count_char "010" (NilEmpty.string_of_uint d) = 0%nat.
Proof. induction d; cbn; tauto. Qed.

Lemma print_int_no_separator (item : Z) :
  count_char " " (print_int item) = 0%nat /\
  count_char "010" (print_int item) = 0%nat.
Proof.
  unfold print_int, NilZero.string_of_int, NilZero.string_of_uint.
  destruct (Z.to_int item) as [d|d]; destruct d; cbn;
    try tauto; apply uint_no_separator.
Qed.

Lemma print_int_inj (x y : Z) : print_int x = print_int y -> x = y.
Proof.
  assert (Hnn : forall z, Z.to_int z <> Decimal.Pos Decimal.Nil /\
                          Z.to_int z <> Decimal.Neg Decimal.Nil).
  { intros [|p|p]; cbn; split; try discriminate; intros [= H];
      exact (DecimalPos.Unsigned.to_uint_nonnil p H). }
  unfold print_int. intros H.
  apply (f_equal NilZero.int_of_string) in H.
  rewrite !NilZero.isi in H by apply Hnn.
  injection H as H. exact (DecimalZ.to_int_inj _ _ H).
Qed.

Lemma count_elements inner :
  count_char " " (print_elements "" inner) = length inner /\
  count_char "010" (print_elements "" inner) = 0%nat.
Proof.
  induction inner as [|item rest [IH1 IH2]]; [now split|].
  rewrite print_elements_cons, !count_char_app, IH1, IH2.
  destruct (print_int_no_separator item) as [-> ->]. cbn. now split.
Qed.

(** Up to the first blank the text is the first number. *)
Lemma split_at_blank : forall u v p q : string,
  count_char " " u = 0%nat -> count_char " " v = 0%nat ->
  u ++ blank ++ p = v ++ blank ++ q -> u = v /\ p = q.
Proof.
  induction u as [|a u IH]; intros [|b v] p q Hu Hv Heq; cbn in *.
  - injection Heq as ->. now split.
  - injection Heq as <- _. discriminate.
  - injection Heq as -> _. discriminate.
  - injection Heq as -> Heq.
    destruct (Ascii.eqb b " "); [discriminate|].
    destruct (IH v p q Hu Hv Heq) as [-> ->]. now split.
Qed.

Lemma endl_is_no_number (u s t : string) :
  count_char "010" u = 0%nat -> endl ++ s <> u ++ blank ++ t.
Proof.
  intros Hu Heq. destruct u as [|a u]; cbn in *.
  - discriminate.
  - injection Heq as <- _. discriminate.
Qed.

Lemma print_line_inj : forall (a b : list Z) (s t : string),
  print_elements "" a ++ endl ++ s = print_elements "" b ++ endl ++ t ->
  a = b /\ s = t.
Proof.
  induction a as [|x a IH]; intros [|y b] s t Heq.
  - cbn in Heq. injection Heq as ->. now split.
  - rewrite print_elements_cons, !string_app_assoc in Heq.
    cbn [print_elements append] in Heq.
    exfalso. revert Heq. apply endl_is_no_number.
    apply print_int_no_separator.
  - rewrite print_elements_cons, !string_app_assoc in Heq.
    cbn [print_elements append] in Heq.
    exfalso. symmetry in Heq. revert Heq. apply endl_is_no_number.
    apply print_int_no_separator.
  - rewrite !print_elements_cons, !string_app_assoc in Heq.
    apply split_at_blank in Heq as [Hxy Heq];
      try apply print_int_no_separator.
    apply print_int_inj in Hxy as ->.
    destruct (IH b s t Heq) as [-> ->]. now split.
Qed.

(** X10. [_tmain] prints one line per sequence and one blank per element:
    the text for a result container holds as many line feeds as the
    container holds sequences, and as many blanks as the sequences hold
    elements in all. *)
Theorem print_result_counts (res : list (list Z)) :
  count_char "010" (print_result "" res) = length res /\
  count_char " " (print_result "" res) = length (concat res).
Proof.
  induction res as [|inner rest [IH1 IH2]]; [now split|].
  rewrite print_result_cons, !count_char_app, IH1, IH2.
  destruct (count_elements inner) as [-> ->]. cbn [concat].
  rewrite length_app. cbn. split; lia.
Qed.

(** X11. What [_tmain] prints determines the result container: two
    containers with the same text hold the same sequences in the same
    order. *)
Theorem print_result_inj : forall res1 res2 : list (list Z),
  print_result "" res1 = print_result "" res2 -> res1 = res2.
Proof.
  induction res1 as [|a res1 IH]; intros [|b res2] Heq.
  - reflexivity.
  - exfalso. apply (f_equal (count_char "010")) in Heq.
    rewrite !(proj1 (print_result_counts _)) in Heq. discriminate.
  - exfalso. apply (f_equal (count_char "010")) in Heq.
    rewrite !(proj1 (print_result_counts _)) in Heq. discriminate.
  - rewrite !print_result_cons in Heq.
    apply print_line_inj in Heq as [-> Heq]. f_equal. now apply IH.
Qed.

(** [_tmain] returns [EXIT_SUCCESS] after printing the eight subsequences of
    0, 1, 2 when it has the four stack frames the recursion needs. *)
Lemma tmain_behaviour (fuel : nat) :
  _tmain fuel =
  if (3 <? fuel)%nat
  then Ok (print_result ""
             [[0; 1; 2]; [0; 1]; [0; 2]; [0]; [1; 2]; [1]; [2]; []]%Z,
           EXIT_SUCCESS)
  else Err OutOfFuel.
Proof.
  do 4 (destruct fuel as [|fuel]; [reflexivity|]).
  unfold _tmain. rewrite subsets_run.
  - reflexivity.
  - split; [reflexivity|cbn; lia].
  - change (3 < S (S (S (S fuel))))%nat. lia.
Qed.
End Printing.

(** ** The further properties at concrete calls *)

Lemma subsets_again_with_new_iterator_witness :
  subsets 2 (InsertIterator 1) 0 1 (Memory [5; 6] [[7]; [8]])
    = Ok (tt, Memory [5; 6] [[7]; [5]; []; [8]]) /\
  subsets 2 (inserter 1) 1 2 (Memory [5; 6] [[7]; [5]; []; [8]])
    = Ok (tt, Memory [5; 6] [[7]; [6]; []; [5]; []; [8]]) /\
  subsets 2 (inserter 3) 1 2 (Memory [5; 6] [[7]; [5]; []; [8]])
    = Ok (tt, Memory [5; 6] [[7]; [5]; []; [6]; []; [8]]).
Proof.
  apply (subsets_again_with_new_iterator 2 2 (InsertIterator 1) 0 1 1 2
           (Memory [5; 6] [[7]; [8]])).
  - split; [reflexivity|cbn; lia].
  - reflexivity.
  - vm_compute. lia.
  - vm_compute. lia.
Defined.

Lemma subsetsCore_prefixes_accumulated_witness :
  subsetsCore 3 (InsertIterator 0) 1 3 [9; 0; 9] 1 2 (Memory [0; 1; 2] [])
  = Ok (InsertIterator 4, Memory [0; 1; 2] [[0; 1; 2]; [0; 1]; [0; 2]; [0]]).
Proof.
  apply (subsetsCore_prefixes_accumulated 3 (InsertIterator 0) 1 3
           [9; 0; 9] 1 2 (Memory [0; 1; 2] [])).
  - split; [reflexivity|cbn; lia].
  - reflexivity.
  - vm_compute. lia.
Defined.

Lemma subsets_reverses_lisp_powerset_witness :
  subsets 3 (InsertIterator 0) 0 2 (Memory [5; 6] [])
  = Ok (tt, emitted (Memory [5; 6] []) (InsertIterator 0)
              (rev [[]; [6]; [5]; [5; 6]])).
Proof.
  apply (subsets_reverses_lisp_powerset 3 (InsertIterator 0) 0 2
           (Memory [5; 6] [])).
  - split; [reflexivity|cbn; lia].
  - vm_compute. lia.
Defined.

Lemma written_iff_subsequence_witness :
  exists out,
    subsets 4 (InsertIterator 0) 0 3 (Memory [0; 1; 2] [])
      = Ok (tt, emitted (Memory [0; 1; 2] []) (InsertIterator 0) out) /\
    forall r, In r out <->
              exists ps, increasing ps /\ drawn_from [0; 1; 2] ps r.
Proof.
  apply (written_iff_subsequence 4 (InsertIterator 0) 0 3
           (Memory [0; 1; 2] [])).
  - split; [reflexivity|cbn; lia].
  - vm_compute. lia.
Defined.

Lemma results_distinct_iff_input_distinct_witness :
  exists out,
    subsets 3 (InsertIterator 0) 0 2 (Memory [5; 5] [])
      = Ok (tt, emitted (Memory [5; 5] []) (InsertIterator 0) out) /\
    (NoDup out <-> NoDup [5; 5]).
Proof.
  apply (results_distinct_iff_input_distinct 3 (InsertIterator 0) 0 2
           (Memory [5; 5] [])).
  - split; [reflexivity|cbn; lia].
  - vm_compute. lia.
Defined.

Lemma total_elements_written_witness :
  exists out,
    subsets 4 (InsertIterator 0) 0 3 (Memory [0; 1; 2] [])
      = Ok (tt, emitted (Memory [0; 1; 2] []) (InsertIterator 0) out) /\
    2 * Vector.size (concat out) = 3 * 2 ^ 3.
Proof.
  apply (total_elements_written 4 (InsertIterator 0) 0 3
           (Memory [0; 1; 2] [])).
  - split; [reflexivity|cbn; lia].
  - vm_compute. lia.
Defined.

Lemma result_at_index_witness :
  exists out,
    subsets 4 (InsertIterator 0) 0 3 (Memory [0; 1; 2] [])
      = Ok (tt, emitted (Memory [0; 1; 2] []) (InsertIterator 0) out) /\
    forall k r, nth_error out k = Some r ->
      exists ps, increasing ps /\ drawn_from [0; 1; 2] ps r /\
                 forall i, In i ps <->
                           (i < 3)%nat /\ Nat.testbit k (3 - 1 - i) = false.
Proof.
  apply (result_at_index 4 (InsertIterator 0) 0 3 (Memory [0; 1; 2] [])).
  - split; [reflexivity|cbn; lia].
  - vm_compute. lia.
Defined.

Lemma print_result_inj_witness : [[0; 1]; []] = [[0; 1]; []].
Proof.
  apply (print_result_inj [[0; 1]; []] [[0; 1]; []]). reflexivity.
Defined.
